(** * Verification of the Go/SQLite registration bridge (sqlite3/func.c)

    The file func.c holds the four entry points through which the host
    runtime registers a collation, a scalar function, an aggregate function
    or a window function with the SQL engine.  Each entry point is a single
    call of the engine's C API to which a fixed set of trampolines
    ([go_compare], [go_func], [go_step], [go_final], [go_value],
    [go_inverse], [go_destroy]) is handed.

    Layout: the callback ABI and the engine API as data, the four entry
    points as programs over that API, engines as interpreters of the API,
    a reference engine that follows the specification's description of the
    engine, and then the theorems. *)

From stdpp Require Import gmap strings list fin_maps.
From Stdlib Require Import ZArith.

Local Open Scope Z_scope.

(** ** The callback ABI (func.c, lines 5-11) *)

(** The seven trampolines declared at the top of func.c. *)
Inductive callback : Set :=
| go_compare
| go_func
| go_step
| go_final
| go_value
| go_inverse
| go_destroy.

#[global] Instance callback_eq_dec : EqDecision callback.
Proof. solve_decision. Defined.

(** A function pointer argument: [None] is the C constant [NULL]. *)
Abbreviation fnptr := (option callback).
Abbreviation NULL := (@None callback).

(** A data pointer ([sqlite3 *db], [void *pApp]) is its address. *)
Abbreviation ptr := Z.

(** The constants of sqlite3.h that func.c and its callers rely on.  The
    header is not part of the sources, so their values are parameters. *)
Class sqlite3_h : Type := {
  SQLITE_OK : Z;
  SQLITE_MISUSE : Z;
  SQLITE_UTF8 : Z;
  SQLITE_MISUSE_is_error : SQLITE_MISUSE ≠ SQLITE_OK
}.

(** ** The engine API used by func.c

    One constructor per API function, with the arguments in the order of
    the C prototypes. *)
Inductive api_call : Type :=
| CreateCollationV2 (db : ptr) (zName : string) (eTextRep : Z) (pArg : ptr)
    (xCompare xDestroy : fnptr)
| CreateFunctionV2 (db : ptr) (zName : string) (nArg eTextRep : Z) (pApp : ptr)
    (xFunc xStep xFinal xDestroy : fnptr)
| CreateWindowFunction (db : ptr) (zName : string) (nArg eTextRep : Z)
    (pApp : ptr) (xStep xFinal xValue xInverse xDestroy : fnptr).

#[global] Instance api_call_eq_dec : EqDecision api_call.
Proof. solve_decision. Defined.

Definition call_db (c : api_call) : ptr :=
  match c with
  | CreateCollationV2 db _ _ _ _ _ => db
  | CreateFunctionV2 db _ _ _ _ _ _ _ _ => db
  | CreateWindowFunction db _ _ _ _ _ _ _ _ _ => db
  end.

Definition call_name (c : api_call) : string :=
  match c with
  | CreateCollationV2 _ zName _ _ _ _ => zName
  | CreateFunctionV2 _ zName _ _ _ _ _ _ _ => zName
  | CreateWindowFunction _ zName _ _ _ _ _ _ _ _ => zName
  end.

(** A collation has no arity. *)
Definition call_arity (c : api_call) : option Z :=
  match c with
  | CreateCollationV2 _ _ _ _ _ _ => None
  | CreateFunctionV2 _ _ nArg _ _ _ _ _ _ => Some nArg
  | CreateWindowFunction _ _ nArg _ _ _ _ _ _ _ => Some nArg
  end.

Definition call_eTextRep (c : api_call) : Z :=
  match c with
  | CreateCollationV2 _ _ eTextRep _ _ _ => eTextRep
  | CreateFunctionV2 _ _ _ eTextRep _ _ _ _ _ => eTextRep
  | CreateWindowFunction _ _ _ eTextRep _ _ _ _ _ _ => eTextRep
  end.

Definition call_handle (c : api_call) : ptr :=
  match c with
  | CreateCollationV2 _ _ _ pArg _ _ => pArg
  | CreateFunctionV2 _ _ _ _ pApp _ _ _ _ => pApp
  | CreateWindowFunction _ _ _ _ pApp _ _ _ _ _ => pApp
  end.

(** The callback slots of a call; a slot the API function does not have is
    [NULL]. *)
Definition slot_compare (c : api_call) : fnptr :=
  match c with
  | CreateCollationV2 _ _ _ _ xCompare _ => xCompare
  | _ => NULL
  end.

Definition slot_func (c : api_call) : fnptr :=
  match c with
  | CreateFunctionV2 _ _ _ _ _ xFunc _ _ _ => xFunc
  | _ => NULL
  end.

Definition slot_step (c : api_call) : fnptr :=
  match c with
  | CreateCollationV2 _ _ _ _ _ _ => NULL
  | CreateFunctionV2 _ _ _ _ _ _ xStep _ _ => xStep
  | CreateWindowFunction _ _ _ _ _ xStep _ _ _ _ => xStep
  end.

Definition slot_final (c : api_call) : fnptr :=
  match c with
  | CreateCollationV2 _ _ _ _ _ _ => NULL
  | CreateFunctionV2 _ _ _ _ _ _ _ xFinal _ => xFinal
  | CreateWindowFunction _ _ _ _ _ _ xFinal _ _ _ => xFinal
  end.

Definition slot_value (c : api_call) : fnptr :=
  match c with
  | CreateWindowFunction _ _ _ _ _ _ _ xValue _ _ => xValue
  | _ => NULL
  end.

Definition slot_inverse (c : api_call) : fnptr :=
  match c with
  | CreateWindowFunction _ _ _ _ _ _ _ _ xInverse _ => xInverse
  | _ => NULL
  end.

Definition slot_destroy (c : api_call) : fnptr :=
  match c with
  | CreateCollationV2 _ _ _ _ _ xDestroy => xDestroy
  | CreateFunctionV2 _ _ _ _ _ _ _ _ xDestroy => xDestroy
  | CreateWindowFunction _ _ _ _ _ _ _ _ _ xDestroy => xDestroy
  end.

(** The slots through which the engine calls back while it runs a
    statement (every slot but the destructor), and the callbacks wired
    into them. *)
Definition service_slots (c : api_call) : list fnptr :=
  [slot_compare c; slot_func c; slot_step c; slot_final c; slot_value c;
   slot_inverse c].

Definition wired (c : api_call) : list callback :=
  omap id (service_slots c ++ [slot_destroy c]).

(** ** Programs over the engine API

    A C function of the bridge is a sequence of API calls, each answered
    by the engine with an [int] status code, that ends by returning. *)
Inductive Api (A : Type) : Type :=
| Ret (a : A)
| Call (c : api_call) (k : Z → Api A).
Arguments Ret {A} a.
Arguments Call {A} c k.

Definition sqlite3_create_collation_v2 (db : ptr) (zName : string)
    (eTextRep : Z) (pArg : ptr) (xCompare xDestroy : fnptr) : Api Z :=
  Call (CreateCollationV2 db zName eTextRep pArg xCompare xDestroy) Ret.

Definition sqlite3_create_function_v2 (db : ptr) (zName : string)
    (nArg eTextRep : Z) (pApp : ptr) (xFunc xStep xFinal xDestroy : fnptr)
    : Api Z :=
  Call (CreateFunctionV2 db zName nArg eTextRep pApp xFunc xStep xFinal
          xDestroy) Ret.

Definition sqlite3_create_window_function (db : ptr) (zName : string)
    (nArg eTextRep : Z) (pApp : ptr)
    (xStep xFinal xValue xInverse xDestroy : fnptr) : Api Z :=
  Call (CreateWindowFunction db zName nArg eTextRep pApp xStep xFinal xValue
          xInverse xDestroy) Ret.

(** The four kinds of extension. *)
Inductive kind : Set := collation | scalar | aggregate | window.

#[global] Instance kind_eq_dec : EqDecision kind.
Proof. solve_decision. Defined.

(** ** The four entry points of func.c

    C's [|] on [int] is [Z.lor]: on two's complement integers it cannot
    leave the range of [int] (lemma [lor_int_range] below). *)
Section Bridge.
Context `{Hdr : sqlite3_h}.

Definition sqlite3_create_go_collation (db : ptr) (zName : string)
    (pApp : ptr) : Api Z :=
  sqlite3_create_collation_v2 db zName SQLITE_UTF8 pApp (Some go_compare)
    (Some go_destroy).

Definition sqlite3_create_go_function (db : ptr) (zName : string)
    (nArg flags : Z) (pApp : ptr) : Api Z :=
  sqlite3_create_function_v2 db zName nArg (Z.lor SQLITE_UTF8 flags) pApp
    (Some go_func) NULL NULL (Some go_destroy).

Definition sqlite3_create_go_window_function (db : ptr) (zName : string)
    (nArg flags : Z) (pApp : ptr) : Api Z :=
  sqlite3_create_window_function db zName nArg (Z.lor SQLITE_UTF8 flags) pApp
    (Some go_step) (Some go_final) NULL NULL (Some go_destroy).

Definition sqlite3_create_go_aggregate_function (db : ptr) (zName : string)
    (nArg flags : Z) (pApp : ptr) : Api Z :=
  sqlite3_create_window_function db zName nArg (Z.lor SQLITE_UTF8 flags) pApp
    (Some go_step) (Some go_final) (Some go_value) (Some go_inverse)
    (Some go_destroy).

(** The entry point of each kind of extension.  The collation entry point
    takes neither an arity nor flags. *)
Definition register (k : kind) (db : ptr) (zName : string) (nArg flags : Z)
    (pApp : ptr) : Api Z :=
  match k with
  | collation => sqlite3_create_go_collation db zName pApp
  | scalar => sqlite3_create_go_function db zName nArg flags pApp
  | aggregate => sqlite3_create_go_aggregate_function db zName nArg flags pApp
  | window => sqlite3_create_go_window_function db zName nArg flags pApp
  end.

End Bridge.

(** ** Engines

    The engine is outside the bridge.  An engine answers each API call with
    a status code and a new state, and its state shows which callbacks it
    has invoked so far, oldest first. *)
Inductive event : Set :=
| Invoked (f : callback) (arg : ptr).

#[global] Instance event_eq_dec : EqDecision event.
Proof. solve_decision. Defined.

Record Engine (S : Type) : Type := {
  exec_api : api_call → S → Z * S;
  invoked : S → list event
}.
Arguments exec_api {S} _ _ _.
Arguments invoked {S} _ _.

(** Running a program against an engine: the value returned, the engine's
    final state and the calls the engine received, in order. *)
Fixpoint run {S A : Type} (E : Engine S) (p : Api A) (st : S)
    : A * S * list api_call :=
  match p with
  | Ret a => (a, st, [])
  | Call c k =>
      let '(rc, st1) := exec_api E c st in
      let '(a, st2, cs) := run E (k rc) st1 in
      (a, st2, c :: cs)
  end.

(** The range of a C [int]. *)
Definition int_range (z : Z) : Prop := - 2 ^ 31 ≤ z < 2 ^ 31.

(** ** A reference engine

    The engine's side of a registration (what it does with the handle and
    the destructor it is given) is not in func.c.  The definitions of this
    part follow the specification's description of the engine. *)

(** Modelled from the spec: the engine's table of registrations is missing
    from the sources.  "Registering the same name+arity atomically replaces
    any prior registration": a function is filed under its name and arity;
    a collation has no arity and is filed under its name. *)
Abbreviation reg_key := (string + string * Z)%type.

(** Modelled from the spec: the key a call is filed under, its "name+arity"
    pair (the engine's lookup of a registration is missing from the
    sources). *)
Definition key_of (c : api_call) : reg_key :=
  match call_arity c with
  | None => inl (call_name c)
  | Some nArg => inr (call_name c, nArg)
  end.

(** Modelled from the spec: the engine's connection state is missing from
    the sources.  "Function names are global to one engine connection",
    "explicit state owned by one connection object and threaded through
    calls": the state is that of the connection [db] points to.  It holds
    the registrations in force, whether the engine was shut down, and the
    callbacks invoked so far. *)
Record engine_state : Type := {
  closed : bool;
  registry : gmap reg_key api_call;
  trace : list event
}.

(** Modelled from the spec: a connection as the engine opens it, with
    nothing registered and no callback invoked yet. *)
Definition engine_init : engine_state :=
  {| closed := false; registry := ∅; trace := [] |}.

(** Modelled from the spec: the engine's release of a registration is
    missing from the sources.  "released exactly once via the destroy
    callback": the engine invokes the destructor it was given, if any, on
    the handle it was given. *)
Definition release (c : api_call) : list event :=
  match slot_destroy c with
  | Some f => [Invoked f (call_handle c)]
  | None => []
  end.

Section ReferenceEngine.
Context `{Hdr : sqlite3_h}.

(** The engine's check of the registration contract; what it accepts is
    the engine's business, so the check is a parameter: it gives the status
    code, [SQLITE_OK] to accept. *)
Variable validate : api_call → Z.

(** Modelled from the spec: the engine's registration functions are missing
    from the sources.  A call that violates the contract is "surfaced
    synchronously as a status code" and "handle ownership is not
    transferred"; a call that succeeds "atomically replaces any prior
    registration, triggering destroy of the old handle", "synchronously
    before the new one becomes active".  An engine that was shut down
    accepts nothing. *)
Definition engine_register (c : api_call) (st : engine_state)
    : Z * engine_state :=
  if closed st then (SQLITE_MISUSE, st)
  else if decide (validate c = SQLITE_OK) then
    (SQLITE_OK,
     {| closed := false;
        registry := <[key_of c := c]> (registry st);
        trace := trace st ++ from_option release [] (registry st !! key_of c) |})
  else (validate c, st).

(** Modelled from the spec: the engine's statement execution is missing
    from the sources.  While it runs a statement the engine calls back
    through a slot of a registration in force, passing the registration's
    handle; "destroy fires ... never by any query-execution path". *)
Definition engine_invoke (key : reg_key) (f : callback) (st : engine_state)
    : engine_state :=
  match registry st !! key with
  | Some c =>
      if decide (Some f ∈ service_slots c) then
        {| closed := closed st;
           registry := registry st;
           trace := trace st ++ [Invoked f (call_handle c)] |}
      else st
  | None => st
  end.

(** Modelled from the spec: the engine's shutdown is missing from the
    sources.  "the engine takes ownership of handle until replaced or shut
    down": shutdown releases every registration in force. *)
Definition engine_shutdown (st : engine_state) : engine_state :=
  {| closed := true;
     registry := ∅;
     trace := trace st ++ flat_map release (map_to_list (registry st)).*2 |}.

(** Modelled from the spec: the engine as a whole, answering the three
    registration functions of its API alike. *)
Definition reference_engine : Engine engine_state :=
  {| exec_api := engine_register; invoked := trace |}.

(** Modelled from the spec: the life of an engine, "register → use →
    replace/shutdown" (the callers of func.c are missing from the
    sources): registrations through the entry points of func.c, callbacks
    during statements, shutdown. *)
Inductive op : Type :=
| Register (k : kind) (db : ptr) (zName : string) (nArg flags : Z) (pApp : ptr)
| Invoke (key : reg_key) (f : callback)
| Shutdown.

(** Modelled from the spec: one step of that life.  It gives the engine's
    next state and the handles the engine took over in the step: "on
    success the engine takes ownership of handle", that is, the handle of
    a registration that returned [SQLITE_OK]. *)
Definition step (o : op) (st : engine_state) : engine_state * list ptr :=
  match o with
  | Register k db zName nArg flags pApp =>
      let '(rc, st1, _) :=
        run reference_engine (register k db zName nArg flags pApp) st in
      (st1, if decide (rc = SQLITE_OK) then [pApp] else [])
  | Invoke key f => (engine_invoke key f st, [])
  | Shutdown => (engine_shutdown st, [])
  end.

(** Modelled from the spec: a whole life, step after step; no two steps
    overlap. *)
Fixpoint lifetime (ops : list op) (st : engine_state)
    : engine_state * list ptr :=
  match ops with
  | [] => (st, [])
  | o :: ops' =>
      let '(st1, hs) := step o st in
      let '(st2, hs') := lifetime ops' st1 in
      (st2, hs ++ hs')
  end.

End ReferenceEngine.

(** How often [go_destroy] was invoked on handle [h]. *)
Definition destroyed (h : ptr) (tr : list event) : nat :=
  length (filter (λ e, e = Invoked go_destroy h) tr).

(** How often handle [h] occurs in a list of handles. *)
Definition occurrences (h : ptr) (hs : list ptr) : nat :=
  length (filter (λ x, x = h) hs).

(** How many of the calls [cs], and how many of the registrations in
    force, hold handle [h]. *)
Definition holders (h : ptr) (cs : list api_call) : nat :=
  length (filter (λ c, call_handle c = h) cs).

Definition live (h : ptr) (reg : gmap reg_key api_call) : nat :=
  holders h (map_to_list reg).*2.

(** The key under which the engine files what an entry point registers. *)
Definition op_key (k : kind) (zName : string) (nArg : Z) : reg_key :=
  if decide (k = collation) then inl zName else inr (zName, nArg).

(** A call as the entry points of func.c make it: [go_destroy] is its
    destructor and sits in no other slot. *)
Definition from_bridge (c : api_call) : Prop :=
  slot_destroy c = Some go_destroy ∧ Some go_destroy ∉ service_slots c.

(** The states the reference engine reaches when it is driven through the
    entry points: every registration in force was made by func.c, and an
    engine that was shut down holds none. *)
Definition well_formed (st : engine_state) : Prop :=
  map_Forall (λ _ c, from_bridge c) (registry st) ∧
  (closed st = true → registry st = ∅).

(** ** Observations on a run *)

(** The status code a program returns, the state it leaves the engine in
    and the calls the engine received from it. *)
Definition status {S : Type} (E : Engine S) (p : Api Z) (st : S) : Z :=
  (run E p st).1.1.

Definition state_after {S : Type} (E : Engine S) (p : Api Z) (st : S) : S :=
  (run E p st).1.2.

Definition received {S : Type} (E : Engine S) (p : Api Z) (st : S)
    : list api_call :=
  (run E p st).2.

(** A program that is one API call [c] whose answer it returns as it is:
    whatever the engine, the engine receives [c] and nothing else, and the
    status and the engine's state are those the engine gives for [c]. *)
Definition forwards (p : Api Z) (c : api_call) : Prop :=
  ∀ (S : Type) (E : Engine S) (st : S),
    received E p st = [c] ∧
    status E p st = (exec_api E c st).1 ∧
    state_after E p st = (exec_api E c st).2.

(** ** Engines used as test doubles *)

(** The values the constants have in the engine's header. *)
Definition sqlite3_h_3 : sqlite3_h.
Proof. refine {| SQLITE_OK := 0; SQLITE_MISUSE := 21; SQLITE_UTF8 := 1 |}; done. Defined.

(** An engine that keeps no registrations and turns down an arity below
    [-1]; when it turns a call down it releases the handle itself, through
    the destructor it was handed (the engine's header says of
    [sqlite3_create_function_v2] that the destructor is also invoked if the
    call fails). *)
Definition releasing_engine `{Hdr : sqlite3_h} : Engine (list event) :=
  {| exec_api := λ c tr,
       if from_option (λ nArg, bool_decide (nArg < -1)) false (call_arity c)
       then (SQLITE_MISUSE, tr ++ release c)
       else (SQLITE_OK, tr);
     invoked := id |}.

(** An engine never invokes a callback in a call it turns down. *)
Definition keeps_handle_on_failure `{Hdr : sqlite3_h} {S : Type}
    (E : Engine S) : Prop :=
  ∀ c st, (exec_api E c st).1 ≠ SQLITE_OK →
    invoked E (exec_api E c st).2 = invoked E st.

(** ** The registration contract

    The names an engine takes as identifiers and the flag bits it supports
    are the engine's: both are parameters. *)
Section Contract.
Context `{Hdr : sqlite3_h}.
Variable valid_name : string → bool.
Variable supported : Z.

(** The bits of [flags] outside the supported set. *)
Definition unknown_bits (flags : Z) : Z := Z.land flags (Z.lnot supported).

(** The arguments of an entry point violate the contract.  A collation has
    neither arity nor flags. *)
Definition violates (k : kind) (zName : string) (nArg flags : Z) : Prop :=
  zName = "" ∨ valid_name zName = false ∨
  (k ≠ collation ∧ (nArg < -1 ∨ unknown_bits flags ≠ 0)).

(** An API call, as the engine receives it, violates the contract. *)
Definition call_violates (c : api_call) : Prop :=
  call_name c = "" ∨ valid_name (call_name c) = false ∨
  (∃ nArg, call_arity c = Some nArg ∧ nArg < -1) ∨
  unknown_bits (call_eTextRep c) ≠ 0.

(** An engine enforces the contract: a violating call gets an error status
    and leaves the engine as it was. *)
Definition enforces {S : Type} (E : Engine S) : Prop :=
  ∀ c st, call_violates c →
    (exec_api E c st).1 ≠ SQLITE_OK ∧ (exec_api E c st).2 = st.

(** The contract as a check an engine can run. *)
Definition contract_check (c : api_call) : Z :=
  if bool_decide (call_name c = "")
     || negb (valid_name (call_name c))
     || from_option (λ nArg, bool_decide (nArg < -1)) false (call_arity c)
     || negb (bool_decide (unknown_bits (call_eTextRep c) = 0))
  then SQLITE_MISUSE
  else SQLITE_OK.

End Contract.

(** The flag bits of a call are the caller's bits and the bits of
    [SQLITE_UTF8], bit by bit: every bit the caller set is set, and a bit
    the caller left clear is set only if it is a bit of [SQLITE_UTF8]. *)
Definition passes_flags `{Hdr : sqlite3_h} (flags : Z) (c : api_call) : Prop :=
  call_eTextRep c = Z.lor SQLITE_UTF8 flags ∧
  (∀ i, Z.testbit flags i = true → Z.testbit (call_eTextRep c) i = true) ∧
  (∀ i, Z.testbit SQLITE_UTF8 i = false →
        Z.testbit (call_eTextRep c) i = Z.testbit flags i).

(** A run was turned down: an error status, and the engine is as it was
    (no registration was produced). *)
Definition rejected `{Hdr : sqlite3_h} {S : Type} (E : Engine S) (p : Api Z)
    (st : S) : Prop :=
  status E p st ≠ SQLITE_OK ∧ state_after E p st = st.

(** Ownership of handle [h] stays with the caller when the run fails: the
    run did not invoke [go_destroy] on [h]. *)
Definition ownership_kept `{Hdr : sqlite3_h} {S : Type} (E : Engine S)
    (p : Api Z) (h : ptr) (st : S) : Prop :=
  status E p st ≠ SQLITE_OK →
  destroyed h (invoked E (state_after E p st)) = destroyed h (invoked E st).

(** * Theorems *)

(** ** Arithmetic of [int] *)

Lemma int_range_shiftr (z : Z) :
  int_range z ↔ Z.shiftr z 31 = 0 ∨ Z.shiftr z 31 = -1.
Proof.
  unfold int_range. rewrite Z.shiftr_div_pow2 by lia.
  assert (H := Z.div_mod z (2 ^ 31) ltac:(lia)).
  assert (H' := Z.mod_pos_bound z (2 ^ 31) ltac:(lia)).
  lia.
Qed.

(** [|] stays in the range of [int]. *)
Lemma lor_int_range (a b : Z) :
  int_range a → int_range b → int_range (Z.lor a b).
Proof.
  rewrite !int_range_shiftr, Z.shiftr_lor.
  intros [-> | ->] [-> | ->]; simpl; auto.
Qed.

(** ** What a run of a single call looks like *)

Lemma run_call {S : Type} (E : Engine S) (c : api_call) (st : S) :
  run E (Call c Ret) st = ((exec_api E c st).1, (exec_api E c st).2, [c]).
Proof. simpl. by destruct (exec_api E c st). Qed.

Lemma forwards_call (c : api_call) : forwards (Call c Ret) c.
Proof.
  intros S E st. unfold received, status, state_after.
  by rewrite run_call.
Qed.

(** The call a program forwards is determined by the program. *)
Lemma forwards_unique (p : Api Z) (c c' : api_call) :
  forwards p c → forwards p c' → c = c'.
Proof.
  intros H H'.
  destruct (H unit {| exec_api := λ _ s, (0, s); invoked := λ _, [] |} tt)
    as [Hc _].
  destruct (H' unit {| exec_api := λ _ s, (0, s); invoked := λ _, [] |} tt)
    as [Hc' _].
  congruence.
Qed.

(** ** The callbacks each entry point installs *)

Section Wiring.
Context `{Hdr : sqlite3_h}.
Implicit Types (db pApp : ptr) (zName : string) (nArg flags : Z).

(** The aggregate entry point hands the engine all four of step, final,
    value and inverse. *)
Lemma aggregate_function_installs_all_four db zName nArg flags pApp :
  ∃ c, forwards (sqlite3_create_go_aggregate_function db zName nArg flags pApp) c ∧
       slot_step c = Some go_step ∧ slot_final c = Some go_final ∧
       slot_value c = Some go_value ∧ slot_inverse c = Some go_inverse.
Proof. eexists; split; [apply forwards_call | done]. Qed.

(** C1, as the code has it: the call the engine receives from
    [sqlite3_create_go_window_function] carries step and final, and a NULL
    pointer in both the value and the inverse slot, for every input and
    whatever the engine answers.  The claim asks for non-null value and
    inverse entry points here; the code hands those to the engine in
    [sqlite3_create_go_aggregate_function] instead. *)
Theorem window_function_value_inverse_null db zName nArg flags pApp :
  ∃ c, forwards (sqlite3_create_go_window_function db zName nArg flags pApp) c ∧
       slot_step c = Some go_step ∧ slot_final c = Some go_final ∧
       slot_value c = NULL ∧ slot_inverse c = NULL.
Proof. eexists; split; [apply forwards_call | done]. Qed.

(** C7: the scalar entry point installs the scalar-call callback only.  The
    engine receives one call, with [go_func] in the scalar slot and NULL in
    the step and final slots (the API function has no value or inverse
    slot). *)
Theorem scalar_function_installs_func_only db zName nArg flags pApp :
  ∃ c, forwards (sqlite3_create_go_function db zName nArg flags pApp) c ∧
       slot_func c = Some go_func ∧
       slot_step c = NULL ∧ slot_final c = NULL ∧
       slot_value c = NULL ∧ slot_inverse c = NULL ∧ slot_compare c = NULL.
Proof. eexists; split; [apply forwards_call | done]. Qed.

(** C8: the collation entry point installs a comparator and the destructor
    and nothing else: the callbacks wired into the call the engine receives
    are exactly [go_compare] and [go_destroy], and the scalar, step, final,
    value and inverse slots are all NULL. *)
Theorem collation_installs_comparator_only db zName pApp :
  ∃ c, forwards (sqlite3_create_go_collation db zName pApp) c ∧
       wired c = [go_compare; go_destroy] ∧
       slot_compare c = Some go_compare ∧ slot_destroy c = Some go_destroy ∧
       slot_func c = NULL ∧ slot_step c = NULL ∧ slot_final c = NULL ∧
       slot_value c = NULL ∧ slot_inverse c = NULL.
Proof. eexists; split; [apply forwards_call | done]. Qed.

(** C9: whatever the arguments of the collation entry point, the text
    encoding in the call the engine receives is [SQLITE_UTF8]; the call is
    a [sqlite3_create_collation_v2] and no argument of the entry point
    reaches its encoding. *)
Theorem collation_encoding_is_utf8 db zName pApp :
  ∃ c, forwards (sqlite3_create_go_collation db zName pApp) c ∧
       call_eTextRep c = SQLITE_UTF8 ∧
       c = CreateCollationV2 db zName SQLITE_UTF8 pApp (slot_compare c)
             (slot_destroy c).
Proof. eexists; split; [apply forwards_call | done]. Qed.

(** ** The flags *)

Lemma passes_flags_lor flags c :
  call_eTextRep c = Z.lor SQLITE_UTF8 flags → passes_flags flags c.
Proof.
  intros Hc. split; [done |]. rewrite Hc.
  split; intros i Hi; rewrite Z.lor_spec, Hi; [apply orb_true_r | done].
Qed.

(** C4: for every flags value, the flag word the engine receives from the
    scalar, the aggregate and the window entry point is [SQLITE_UTF8 |
    flags]: every bit the caller set is set in it, and outside the bits of
    [SQLITE_UTF8] it is the caller's word bit for bit. *)
Theorem flags_passed_through db zName nArg flags pApp :
  (∃ c, forwards (sqlite3_create_go_function db zName nArg flags pApp) c ∧
        passes_flags flags c) ∧
  (∃ c, forwards (sqlite3_create_go_aggregate_function db zName nArg flags pApp) c ∧
        passes_flags flags c) ∧
  (∃ c, forwards (sqlite3_create_go_window_function db zName nArg flags pApp) c ∧
        passes_flags flags c).
Proof.
  repeat split; eexists; (split; [apply forwards_call |]);
    by apply passes_flags_lor.
Qed.

(** The flag word is an [int] again. *)
Lemma flags_int_range flags c :
  int_range SQLITE_UTF8 → int_range flags → passes_flags flags c →
  int_range (call_eTextRep c).
Proof. intros Hu Hf [-> _]. by apply lor_int_range. Qed.

(** ** What every entry point does *)

Lemma register_forwards k db zName nArg flags pApp :
  ∃ c, forwards (register k db zName nArg flags pApp) c ∧
       slot_destroy c = Some go_destroy ∧
       call_db c = db ∧ call_name c = zName ∧ call_handle c = pApp ∧
       call_arity c = (if decide (k = collation) then None else Some nArg) ∧
       (k ≠ collation → call_eTextRep c = Z.lor SQLITE_UTF8 flags).
Proof.
  destruct k; (eexists; split; [apply forwards_call |]); by repeat split.
Qed.

(** C10: each of the four entry points is one API call whose answer is
    returned as it is.  For every engine, the engine receives that call and
    no other, the status code and the engine's state are those the engine
    gives for the call, the destructor slot holds [go_destroy], and db,
    name, arity (where the entry point has one) and handle are the
    arguments of the entry point. *)
Theorem entry_points_only_forward k db zName nArg flags pApp :
  ∃ c, forwards (register k db zName nArg flags pApp) c ∧
       slot_destroy c = Some go_destroy ∧
       call_db c = db ∧ call_name c = zName ∧ call_handle c = pApp ∧
       call_arity c = (if decide (k = collation) then None else Some nArg).
Proof.
  destruct (register_forwards k db zName nArg flags pApp) as (c & H).
  exists c. tauto.
Qed.

End Wiring.

(** ** Failure and the contract: what is the engine's and what the bridge's *)

Section Failure.
Context `{Hdr : sqlite3_h}.
Implicit Types (db pApp : ptr) (zName : string) (nArg flags : Z).

Lemma reference_engine_keeps_handle (validate : api_call → Z) :
  keeps_handle_on_failure (reference_engine validate).
Proof.
  intros c st. simpl. unfold engine_register.
  destruct (closed st); [done |]. by case_decide.
Qed.

Lemma contract_check_violation valid_name supported c :
  call_violates valid_name supported c →
  contract_check valid_name supported c = SQLITE_MISUSE.
Proof.
  unfold call_violates, contract_check.
  intros [Hn | [Hv | [(n & Ha & Hlt) | Hb]]].
  - by rewrite bool_decide_true.
  - rewrite Hv. simpl. by rewrite orb_true_r.
  - rewrite Ha. simpl. rewrite (bool_decide_true (n < -1)) by done.
    by rewrite orb_true_r.
  - rewrite (bool_decide_false (_ = 0)) by done. simpl.
    by rewrite !orb_true_r.
Qed.

Lemma reference_engine_enforces valid_name supported :
  enforces valid_name supported
    (reference_engine (contract_check valid_name supported)).
Proof.
  intros c st Hc. simpl. unfold engine_register.
  destruct (closed st); [split; [apply SQLITE_MISUSE_is_error | done] |].
  rewrite (contract_check_violation _ _ _ Hc).
  case_decide as Heq; [by destruct SQLITE_MISUSE_is_error |].
  split; [apply SQLITE_MISUSE_is_error | done].
Qed.

(** Unknown bits among the caller's flags are still unknown bits of the
    flag word the engine receives. *)
Lemma unknown_bits_lor supported u flags :
  unknown_bits supported flags ≠ 0 →
  unknown_bits supported (Z.lor u flags) ≠ 0.
Proof.
  unfold unknown_bits. rewrite Z.land_lor_distr_l, Z.lor_eq_0_iff. tauto.
Qed.

(** C2, as amended: the bridge has no failure path of its own.  With an
    engine that invokes no callback in a call it turns down, a registration
    through any of the four entry points that returns a failure status has
    invoked no callback at all; in particular [go_destroy] was not invoked
    on the handle, which stays the caller's to release. *)
Theorem failed_registration_keeps_handle {S : Type} (E : Engine S)
    k db zName nArg flags pApp (st : S) :
  keeps_handle_on_failure E →
  status E (register k db zName nArg flags pApp) st ≠ SQLITE_OK →
  invoked E (state_after E (register k db zName nArg flags pApp) st)
    = invoked E st ∧
  ownership_kept E (register k db zName nArg flags pApp) pApp st.
Proof.
  intros HE Hrc.
  destruct (register_forwards k db zName nArg flags pApp) as (c & Hc & _).
  destruct (Hc S E st) as (_ & Hs & Hst).
  assert (Hinv : invoked E (state_after E (register k db zName nArg flags pApp) st)
                 = invoked E st).
  { rewrite Hst. apply HE. by rewrite <- Hs. }
  split; [done |]. intros _. by rewrite Hinv.
Qed.

(** C5, as amended: the bridge checks nothing itself; with an engine that
    enforces the contract, a registration through any of the four entry
    points whose arguments violate it (an empty or invalid name; for a
    function, an arity below [-1] or a flag bit outside the supported set)
    is turned down with the engine's error status and produces no
    registration. *)
Theorem violation_rejected_by_engine {S : Type} (E : Engine S)
    (valid_name : string → bool) (supported : Z)
    k db zName nArg flags pApp (st : S) :
  enforces valid_name supported E →
  violates valid_name supported k zName nArg flags →
  rejected E (register k db zName nArg flags pApp) st.
Proof.
  intros HE Hv.
  destruct (register_forwards k db zName nArg flags pApp)
    as (c & Hc & _ & _ & Hname & _ & Harity & Hflags).
  destruct (Hc S E st) as (_ & Hs & Hst).
  unfold rejected. rewrite Hs, Hst. apply HE.
  unfold call_violates. rewrite Hname.
  destruct Hv as [Hn | [Hn | (Hk & [Ha | Hb])]]; [by left | by right; left | |].
  - right; right; left. exists nArg. by rewrite Harity, decide_False.
  - right; right; right. rewrite (Hflags Hk). by apply unknown_bits_lor.
Qed.

End Failure.

(** ** The life of a handle in the reference engine *)

Section Counting.
Implicit Types (h : ptr) (c : api_call) (m : gmap reg_key api_call).

Lemma destroyed_app h (tr tr' : list event) :
  destroyed h (tr ++ tr') = (destroyed h tr + destroyed h tr')%nat.
Proof. unfold destroyed. by rewrite filter_app, length_app. Qed.

Lemma holders_cons h c (cs : list api_call) :
  holders h (c :: cs)
  = ((if decide (call_handle c = h) then 1 else 0) + holders h cs)%nat.
Proof. unfold holders. rewrite filter_cons. by case_decide. Qed.

Lemma holders_Permutation h (cs cs' : list api_call) :
  cs ≡ₚ cs' → holders h cs = holders h cs'.
Proof. intros Hcs. unfold holders. by rewrite Hcs. Qed.

Lemma live_empty h : live h ∅ = 0%nat.
Proof. unfold live. by rewrite map_to_list_empty. Qed.

Lemma live_insert_fresh h m (key : reg_key) c :
  m !! key = None →
  live h (<[key:=c]> m)
  = ((if decide (call_handle c = h) then 1 else 0) + live h m)%nat.
Proof.
  intros Hk. unfold live.
  rewrite (holders_Permutation h _ ((key, c) :: map_to_list m).*2).
  - rewrite fmap_cons. apply holders_cons.
  - by apply fmap_Permutation, map_to_list_insert.
Qed.

Lemma live_delete h m (key : reg_key) c :
  m !! key = Some c →
  live h m
  = ((if decide (call_handle c = h) then 1 else 0) + live h (delete key m))%nat.
Proof.
  intros Hk. rewrite <- (insert_delete_id m key c Hk) at 1.
  apply live_insert_fresh, lookup_delete_eq.
Qed.

(** Releasing a call of func.c is one invocation of [go_destroy] on the
    call's handle. *)
Lemma destroyed_release h c :
  from_bridge c →
  destroyed h (release c) = if decide (call_handle c = h) then 1%nat else 0%nat.
Proof.
  intros [Hd _]. unfold release. rewrite Hd. unfold destroyed.
  rewrite filter_cons, filter_nil.
  repeat case_decide; simplify_eq; done.
Qed.

Lemma destroyed_release_all h (cs : list api_call) :
  Forall from_bridge cs →
  destroyed h (flat_map release cs) = holders h cs.
Proof.
  induction 1 as [| c cs Hc _ IH]; [done |]. simpl.
  by rewrite destroyed_app, destroyed_release, holders_cons, IH.
Qed.

(** A registration replaces what was filed under its key; the handle of
    what it replaces is released. *)
Lemma live_replace h m c :
  map_Forall (λ _ c', from_bridge c') m →
  (live h (<[key_of c:=c]> m)
   + destroyed h (from_option release [] (m !! key_of c)))%nat
  = ((if decide (call_handle c = h) then 1 else 0) + live h m)%nat.
Proof.
  intros Hm. destruct (m !! key_of c) as [old |] eqn:Hk; simpl.
  - rewrite <- insert_delete_eq.
    rewrite live_insert_fresh by apply lookup_delete_eq.
    rewrite (live_delete h m _ old Hk).
    rewrite destroyed_release by exact (Hm _ _ Hk). lia.
  - rewrite live_insert_fresh by done. unfold destroyed. simpl. lia.
Qed.

End Counting.

Section Lifetime.
Context `{Hdr : sqlite3_h}.
Variable validate : api_call → Z.
Implicit Types (db pApp h : ptr) (zName : string) (nArg flags : Z).
Implicit Types (st : engine_state) (o : op) (ops : list op).

Lemma occurrences_app h (hs hs' : list ptr) :
  occurrences h (hs ++ hs') = (occurrences h hs + occurrences h hs')%nat.
Proof. unfold occurrences. by rewrite filter_app, length_app. Qed.

Lemma occurrences_singleton h pApp :
  occurrences h [pApp] = if decide (pApp = h) then 1%nat else 0%nat.
Proof. unfold occurrences. rewrite filter_cons, filter_nil. by case_decide. Qed.

(** The call behind every entry point is one of func.c's, holds the
    caller's handle and is filed under the entry point's name and arity. *)
Lemma register_from_bridge k db zName nArg flags pApp :
  ∃ c, forwards (register k db zName nArg flags pApp) c ∧
       from_bridge c ∧ call_handle c = pApp ∧
       key_of c = op_key k zName nArg.
Proof.
  destruct k; (eexists; split; [apply forwards_call |]);
    (split; [split; [done | unfold service_slots; simpl] | done]);
    repeat (apply not_elem_of_cons; split; [done |]); apply not_elem_of_nil.
Qed.

Lemma step_register k db zName nArg flags pApp st :
  step validate (Register k db zName nArg flags pApp) st
  = (state_after (reference_engine validate)
       (register k db zName nArg flags pApp) st,
     if decide (status (reference_engine validate)
                  (register k db zName nArg flags pApp) st = SQLITE_OK)
     then [pApp] else []).
Proof.
  unfold step, status, state_after.
  by destruct (run _ _ st) as [[rc st1] cs].
Qed.

(** What a registration through an entry point does to the reference
    engine, case by case. *)
Lemma step_register_cases k db zName nArg flags pApp st :
  ∃ c, forwards (register k db zName nArg flags pApp) c ∧
       from_bridge c ∧ call_handle c = pApp ∧
       key_of c = op_key k zName nArg ∧
       ((status (reference_engine validate)
           (register k db zName nArg flags pApp) st ≠ SQLITE_OK ∧
         step validate (Register k db zName nArg flags pApp) st = (st, []))
        ∨
        (status (reference_engine validate)
           (register k db zName nArg flags pApp) st = SQLITE_OK ∧
         closed st = false ∧
         step validate (Register k db zName nArg flags pApp) st
         = ({| closed := false;
               registry := <[key_of c:=c]> (registry st);
               trace := trace st
                        ++ from_option release [] (registry st !! key_of c) |},
            [pApp]))).
Proof.
  destruct (register_from_bridge k db zName nArg flags pApp)
    as (c & Hc & Hb & Hh & Hk).
  exists c. do 4 (split; [done |]).
  rewrite step_register.
  destruct (Hc _ (reference_engine validate) st) as (_ & -> & ->).
  simpl. unfold engine_register.
  destruct (closed st) eqn:Hcl; simpl.
  { left. split; [apply SQLITE_MISUSE_is_error |].
    by rewrite decide_False by apply SQLITE_MISUSE_is_error. }
  destruct (decide (validate c = SQLITE_OK)) as [Hv | Hv]; simpl.
  - right. by rewrite decide_True.
  - left. by rewrite decide_False.
Qed.

Lemma destroyed_invoke h f arg :
  f ≠ go_destroy → destroyed h [Invoked f arg] = 0%nat.
Proof.
  intros Hf. unfold destroyed. rewrite filter_cons, filter_nil.
  case_decide; [simplify_eq | done].
Qed.

(** Every step keeps the books: handles taken over are in force or
    destroyed. *)
Lemma step_accounting o st h :
  well_formed st →
  well_formed (step validate o st).1 ∧
  (live h (registry (step validate o st).1)
   + destroyed h (trace (step validate o st).1))%nat
  = (live h (registry st) + destroyed h (trace st)
     + occurrences h (step validate o st).2)%nat.
Proof.
  intros [Hreg Hcl]. destruct o as [k db zName nArg flags pApp | key f |].
  - destruct (step_register_cases k db zName nArg flags pApp st)
      as (c & _ & Hb & Hh & _ & [[_ ->] | (_ & _ & ->)]); simpl.
    { split; [done |]. unfold occurrences. simpl. lia. }
    split; [split; [by apply map_Forall_insert_2 | done] |].
    rewrite destroyed_app, occurrences_singleton, <- Hh.
    pose proof (live_replace h (registry st) c Hreg). lia.
  - simpl. unfold engine_invoke.
    destruct (registry st !! key) as [c |] eqn:Hk;
      [| split; [done |]; unfold occurrences; simpl; lia].
    case_decide as Hf; [| split; [done |]; unfold occurrences; simpl; lia].
    simpl. split; [done |].
    rewrite destroyed_app, destroyed_invoke; [unfold occurrences; simpl; lia |].
    intros ->. by destruct (Hreg _ _ Hk) as [_ Hn].
  - simpl. split; [split; [apply map_Forall_empty | done] |].
    rewrite live_empty, destroyed_app, destroyed_release_all.
    + unfold live, occurrences. simpl. lia.
    + apply map_Forall_to_list in Hreg.
      apply Forall_fmap. eapply Forall_impl; [exact Hreg |].
      by intros [? ?].
Qed.

Lemma lifetime_accounting ops st h :
  well_formed st →
  well_formed (lifetime validate ops st).1 ∧
  (live h (registry (lifetime validate ops st).1)
   + destroyed h (trace (lifetime validate ops st).1))%nat
  = (live h (registry st) + destroyed h (trace st)
     + occurrences h (lifetime validate ops st).2)%nat.
Proof.
  revert st. induction ops as [| o ops IH]; intros st Hst; simpl.
  { split; [done |]. unfold occurrences. simpl. lia. }
  destruct (step_accounting o st h Hst) as [Hwf Hacc].
  destruct (step validate o st) as [st1 hs]; simpl in *.
  destruct (IH st1 Hwf) as [Hwf' Hacc'].
  destruct (lifetime validate ops st1) as [st2 hs']; simpl in *.
  split; [done |]. rewrite occurrences_app. lia.
Qed.

Lemma engine_init_well_formed : well_formed engine_init.
Proof. split; [apply map_Forall_empty | done]. Qed.

(** The trace only grows. *)
Lemma step_trace_grows o st :
  ∃ evs, trace (step validate o st).1 = trace st ++ evs.
Proof.
  destruct o as [k db zName nArg flags pApp | key f |].
  - destruct (step_register_cases k db zName nArg flags pApp st)
      as (c & _ & _ & _ & _ & [[_ ->] | (_ & _ & ->)]); simpl;
      [exists []; by rewrite app_nil_r | by eexists].
  - simpl. unfold engine_invoke.
    destruct (registry st !! key) as [c |];
      [case_decide |]; simpl; try by eexists.
    all: exists []; by rewrite app_nil_r.
  - simpl. by eexists.
Qed.

Lemma lifetime_trace_grows ops st :
  ∃ evs, trace (lifetime validate ops st).1 = trace st ++ evs.
Proof.
  revert st. induction ops as [| o ops IH]; intros st; simpl.
  { exists []. by rewrite app_nil_r. }
  destruct (step_trace_grows o st) as [evs Hevs].
  destruct (step validate o st) as [st1 hs]; simpl in *.
  destruct (IH st1) as [evs' Hevs'].
  destruct (lifetime validate ops st1) as [st2 hs']; simpl in *.
  exists (evs ++ evs'). by rewrite Hevs', Hevs, app_assoc.
Qed.

End Lifetime.

Section Temporal.
Context `{Hdr : sqlite3_h}.
Variable validate : api_call → Z.
Implicit Types (db pApp h : ptr) (zName : string) (nArg flags : Z).
Implicit Types (st : engine_state) (o : op) (ops : list op).

(** A step in which [go_destroy] fires on [h] is a shutdown or a
    successful registration under a name and arity whose registration in
    force holds [h]. *)
Lemma destroy_trigger o st h :
  well_formed st →
  destroyed h (trace (step validate o st).1) ≠ destroyed h (trace st) →
  o = Shutdown ∨
  ∃ k db zName nArg flags pApp old,
    o = Register k db zName nArg flags pApp ∧
    registry st !! op_key k zName nArg = Some old ∧ call_handle old = h ∧
    status (reference_engine validate)
      (register k db zName nArg flags pApp) st = SQLITE_OK.
Proof.
  intros [Hreg Hcl] Hd.
  destruct o as [k db zName nArg flags pApp | key f |]; [| | by left].
  - right.
    destruct (step_register_cases validate k db zName nArg flags pApp st)
      as (c & _ & _ & _ & Hk & [[_ Hs] | (Hok & _ & Hs)]);
      rewrite Hs in Hd; simpl in Hd; [done |].
    rewrite Hk in Hd.
    destruct (registry st !! op_key k zName nArg) as [old |] eqn:Hold;
      simpl in Hd; [| by rewrite app_nil_r in Hd].
    exists k, db, zName, nArg, flags, pApp, old.
    do 2 (split; [done |]). split; [| done].
    rewrite destroyed_app, destroyed_release in Hd by exact (Hreg _ _ Hold).
    case_decide; [done | lia].
  - exfalso. apply Hd. simpl. unfold engine_invoke.
    destruct (registry st !! key) as [c |] eqn:Hk; [| done].
    case_decide as Hf; [| done]. simpl.
    rewrite destroyed_app, destroyed_invoke; [lia |].
    intros ->. by destruct (Hreg _ _ Hk) as [_ Hn].
Qed.

(** Once the engine is shut down, [go_destroy] has fired on [h] as often
    as successful registrations were given [h]: once for each. *)
Lemma destroy_count_at_shutdown ops h :
  closed (lifetime validate ops engine_init).1 = true →
  destroyed h (trace (lifetime validate ops engine_init).1)
  = occurrences h (lifetime validate ops engine_init).2.
Proof.
  intros Hclosed.
  destruct (lifetime_accounting validate ops engine_init h
              engine_init_well_formed) as [[_ Hcl] Hacc].
  rewrite (Hcl Hclosed), !live_empty in Hacc.
  unfold destroyed in Hacc at 2. simpl in Hacc. lia.
Qed.

(** C3 (against the reference engine): take any life of the engine, made of
    registrations through the four entry points of func.c, callbacks
    during statements and shutdowns, and a handle [h] that exactly one
    successful registration was given.  At the end of it [h] is either
    still in force and [go_destroy] has not fired on it, or no longer in
    force and [go_destroy] has fired on it once, never more; once the
    engine is shut down it has fired exactly once; and every step at
    which it fires is a shutdown or a successful registration that
    replaces the registration holding [h]. *)
Theorem destroy_fires_exactly_once ops h :
  occurrences h (lifetime validate ops engine_init).2 = 1%nat →
  (live h (registry (lifetime validate ops engine_init).1)
   + destroyed h (trace (lifetime validate ops engine_init).1) = 1)%nat ∧
  (destroyed h (trace (lifetime validate ops engine_init).1) ≤ 1)%nat ∧
  (closed (lifetime validate ops engine_init).1 = true →
   destroyed h (trace (lifetime validate ops engine_init).1) = 1%nat) ∧
  (∀ ops1 o ops2, ops = ops1 ++ o :: ops2 →
     destroyed h
       (trace (step validate o (lifetime validate ops1 engine_init).1).1)
     ≠ destroyed h (trace (lifetime validate ops1 engine_init).1) →
     o = Shutdown ∨
     ∃ k db zName nArg flags pApp old,
       o = Register k db zName nArg flags pApp ∧
       registry (lifetime validate ops1 engine_init).1
         !! op_key k zName nArg = Some old ∧
       call_handle old = h ∧
       status (reference_engine validate)
         (register k db zName nArg flags pApp)
         (lifetime validate ops1 engine_init).1 = SQLITE_OK).
Proof.
  intros Hone.
  destruct (lifetime_accounting validate ops engine_init h
              engine_init_well_formed) as [[Hreg Hcl] Hacc].
  rewrite Hone in Hacc. simpl in Hacc. rewrite live_empty in Hacc.
  unfold destroyed in Hacc at 2. simpl in Hacc.
  split; [lia |]. split; [lia |]. split.
  - intros Hclosed. rewrite (Hcl Hclosed), live_empty in Hacc. lia.
  - intros ops1 o ops2 _. apply destroy_trigger.
    apply (lifetime_accounting validate ops1 engine_init h),
      engine_init_well_formed.
Qed.

(** C6 (against the reference engine): at any point of the engine's life,
    when a registration through an entry point succeeds under a name and
    arity that hold a registration [old], the call itself invokes
    [go_destroy] on the old handle, as the one callback it invokes, and
    files the new call with the caller's handle; whatever happens later,
    every callback the engine invokes from then on (so every callback the
    new handle services) comes after that invocation in the trace. *)
Theorem replacement_destroys_old_first ops k db zName nArg flags pApp old :
  registry (lifetime validate ops engine_init).1 !! op_key k zName nArg
    = Some old →
  status (reference_engine validate) (register k db zName nArg flags pApp)
    (lifetime validate ops engine_init).1 = SQLITE_OK →
  trace (state_after (reference_engine validate)
           (register k db zName nArg flags pApp)
           (lifetime validate ops engine_init).1)
    = trace (lifetime validate ops engine_init).1
      ++ [Invoked go_destroy (call_handle old)] ∧
  (∃ new, forwards (register k db zName nArg flags pApp) new ∧
          call_handle new = pApp ∧
          registry (state_after (reference_engine validate)
                      (register k db zName nArg flags pApp)
                      (lifetime validate ops engine_init).1)
            !! op_key k zName nArg = Some new) ∧
  (∀ later, ∃ tail,
     trace (lifetime validate later
              (state_after (reference_engine validate)
                 (register k db zName nArg flags pApp)
                 (lifetime validate ops engine_init).1)).1
     = trace (lifetime validate ops engine_init).1
       ++ Invoked go_destroy (call_handle old) :: tail).
Proof.
  intros Hold Hok.
  destruct (lifetime_accounting validate ops engine_init 0
              engine_init_well_formed) as [[Hreg _] _].
  set (st := (lifetime validate ops engine_init).1) in *.
  destruct (step_register_cases validate k db zName nArg flags pApp st)
    as (c & Hc & _ & Hh & Hk & [[Hne _] | (_ & _ & Hs)]); [done |].
  rewrite step_register in Hs. apply (f_equal fst) in Hs. simpl in Hs.
  rewrite Hs. simpl. rewrite Hk, Hold. simpl.
  destruct (Hreg _ _ Hold) as [Hd _]. unfold release. rewrite Hd.
  split; [done |]. split.
  - exists c. do 2 (split; [done |]). apply lookup_insert_eq.
  - intros later.
    destruct (lifetime_trace_grows validate later
                {| closed := false;
                   registry := <[op_key k zName nArg:=c]> (registry st);
                   trace := trace st ++ [Invoked go_destroy (call_handle old)] |})
      as [tail Htail].
    exists tail. rewrite Htail. simpl. by rewrite <- app_assoc.
Qed.

End Temporal.

(** ** Further properties of the entry points *)

Section EntryPoints.
Context `{Hdr : sqlite3_h}.
Implicit Types (db pApp : ptr) (zName : string) (nArg flags : Z).
Implicit Types (k : kind) (c : api_call).

(** The text encoding and flag word of the call behind each entry point. *)
Lemma register_eTextRep k db zName nArg flags pApp :
  ∃ c, forwards (register k db zName nArg flags pApp) c ∧
       call_eTextRep c
       = if decide (k = collation) then SQLITE_UTF8
         else Z.lor SQLITE_UTF8 flags.
Proof. destruct k; (eexists; split; [apply forwards_call | done]). Qed.


(** X1: the word every entry point hands the engine as [eTextRep] is a C [int]
    again: the [|] of func.c cannot overflow, whatever bits the caller sets,
    the sign bit included. *)
Theorem flag_word_is_int k db zName nArg flags pApp :
  int_range SQLITE_UTF8 → int_range flags →
  ∃ c, forwards (register k db zName nArg flags pApp) c ∧
       int_range (call_eTextRep c).
Proof.
  intros Hu Hf.
  destruct (register_eTextRep k db zName nArg flags pApp) as (c & Hc & Hw).
  exists c. split; [done |]. rewrite Hw.
  case_decide; [done | by apply lor_int_range].
Qed.

(** X2: a caller that sets the bits of [SQLITE_UTF8] in its flags itself gets
    the very same program, hence the same call, status and engine state, as
    one that leaves them out: the bridge's [|] is idempotent. *)
Theorem encoding_flag_redundant k db zName nArg flags pApp :
  register k db zName nArg (Z.lor SQLITE_UTF8 flags) pApp
  = register k db zName nArg flags pApp.
Proof.
  destruct k; simpl; [done | ..];
    unfold sqlite3_create_go_function, sqlite3_create_go_aggregate_function,
      sqlite3_create_go_window_function;
    by rewrite Z.lor_assoc, Z.lor_diag.
Qed.


(** X4: the engine can tell from the call it receives which entry point made
    it and with which arguments: two entry-point calls that reach the
    engine as the same API call are the same entry point with the same db,
    name and handle and, for a function, the same arity and the same flags
    outside the bits of [SQLITE_UTF8]. *)
Theorem entry_points_injective k k' db db' zName zName' nArg nArg'
    flags flags' pApp pApp' c :
  forwards (register k db zName nArg flags pApp) c →
  forwards (register k' db' zName' nArg' flags' pApp') c →
  k = k' ∧ db = db' ∧ zName = zName' ∧ pApp = pApp' ∧
  (k ≠ collation →
   nArg = nArg' ∧
   ∀ i, Z.testbit SQLITE_UTF8 i = false →
        Z.testbit flags i = Z.testbit flags' i).
Proof.
  intros H H'.
  assert (Hbits : Z.lor SQLITE_UTF8 flags = Z.lor SQLITE_UTF8 flags' →
                  ∀ i, Z.testbit SQLITE_UTF8 i = false →
                       Z.testbit flags i = Z.testbit flags' i).
  { intros Heq i Hi. apply (f_equal (λ z, Z.testbit z i)) in Heq.
    by rewrite !Z.lor_spec, Hi in Heq. }
  destruct k, k';
    (pose proof (forwards_unique _ _ _ (forwards_call _) H) as <-);
    (pose proof (forwards_unique _ _ _ (forwards_call _) H') as Heq);
    try discriminate Heq; inversion Heq; subst;
    (repeat split; try done; try congruence); by apply Hbits.
Qed.

(** X5: the callbacks of every call come in the pairs the API asks for: step
    and final are both set or both NULL, value and inverse are both set or
    both NULL and are set only beside a step, exactly one of comparator,
    scalar call and step is set, and no trampoline sits in two slots. *)
Theorem callbacks_well_paired k db zName nArg flags pApp :
  ∃ c, forwards (register k db zName nArg flags pApp) c ∧
       (slot_step c = NULL ↔ slot_final c = NULL) ∧
       (slot_value c = NULL ↔ slot_inverse c = NULL) ∧
       (slot_value c ≠ NULL → slot_step c ≠ NULL) ∧
       length (omap id [slot_compare c; slot_func c; slot_step c]) = 1%nat ∧
       NoDup (wired c).
Proof.
  destruct k; (eexists; split; [apply forwards_call |]);
    (repeat split; try done);
    unfold wired; simpl;
    repeat (apply NoDup_cons; split;
            [repeat (apply not_elem_of_cons; split; [done |]);
             apply not_elem_of_nil |]);
    apply NoDup_nil_2.
Qed.

(** X6: for the same arguments the window and the aggregate entry point make
    the same API call but for two slots: same API function, db, name,
    arity, flag word and handle, same step, final and destructor; the
    value and inverse slots are NULL from the window entry point and hold
    [go_value] and [go_inverse] from the aggregate entry point. *)
Theorem window_aggregate_differ_in_value_inverse db zName nArg flags pApp :
  ∃ cw ca,
    forwards (sqlite3_create_go_window_function db zName nArg flags pApp) cw ∧
    forwards (sqlite3_create_go_aggregate_function db zName nArg flags pApp) ca ∧
    cw = CreateWindowFunction (call_db ca) (call_name ca) nArg
           (call_eTextRep ca) (call_handle ca) (slot_step ca) (slot_final ca)
           NULL NULL (slot_destroy ca) ∧
    ca = CreateWindowFunction (call_db cw) (call_name cw) nArg
           (call_eTextRep cw) (call_handle cw) (slot_step cw) (slot_final cw)
           (Some go_value) (Some go_inverse) (slot_destroy cw) ∧
    wired ca = [go_step; go_final; go_value; go_inverse; go_destroy] ∧
    wired cw = [go_step; go_final; go_destroy].
Proof.
  do 2 eexists. split; [apply forwards_call |].
  split; [apply forwards_call | done].
Qed.

End EntryPoints.

(** ** The theorems at concrete registrations

    Header values as in [sqlite3_h_3]; an engine that takes every name and
    supports the flag bits 1 and 2048. *)

Lemma failed_registration_keeps_handle_witness :
  let E := reference_engine (Hdr := sqlite3_h_3)
             (contract_check (Hdr := sqlite3_h_3) (λ _, true) 2049) in
  let p := register (Hdr := sqlite3_h_3) scalar 1 "f" (-2) 0 7 in
  keeps_handle_on_failure (Hdr := sqlite3_h_3) E ∧
  status E p engine_init ≠ 0 ∧
  invoked E (state_after E p engine_init) = invoked E engine_init ∧
  ownership_kept (Hdr := sqlite3_h_3) E p 7 engine_init.
Proof.
  split; [apply reference_engine_keeps_handle |].
  split; [by vm_compute |].
  apply (failed_registration_keeps_handle (Hdr := sqlite3_h_3)).
  - apply reference_engine_keeps_handle.
  - by vm_compute.
Defined.

(** C2, as stated, fails: handed to an engine that releases the handle of a
    call it turns down, [sqlite3_create_go_function(db, "f", -2, 0, 7)]
    returns the failure status 21 and [go_destroy] has been invoked on
    handle 7 by the time it returns. *)
Lemma failed_registration_destroys_handle :
  let E := releasing_engine (Hdr := sqlite3_h_3) in
  let p := sqlite3_create_go_function (Hdr := sqlite3_h_3) 1 "f" (-2) 0 7 in
  status E p [] = 21 ∧
  invoked E (state_after E p []) = [Invoked go_destroy 7] ∧
  ¬ ownership_kept (Hdr := sqlite3_h_3) E p 7 [].
Proof.
  split; [done |]. split; [done |].
  intros H. by specialize (H ltac:(done)).
Qed.

Lemma violation_rejected_by_engine_witness :
  let E := reference_engine (Hdr := sqlite3_h_3)
             (contract_check (Hdr := sqlite3_h_3) (λ _, true) 2049) in
  enforces (Hdr := sqlite3_h_3) (λ _, true) 2049 E ∧
  violates (λ _, true) 2049 window "f" 1 4096 ∧
  rejected (Hdr := sqlite3_h_3) E
    (register (Hdr := sqlite3_h_3) window 1 "f" 1 4096 7) engine_init.
Proof.
  assert (Hv : violates (λ _, true) 2049 window "f" 1 4096).
  { right; right. split; [done |]. right. by vm_compute. }
  split; [apply reference_engine_enforces |]. split; [exact Hv |].
  apply (violation_rejected_by_engine (Hdr := sqlite3_h_3) _ (λ _, true) 2049);
    [apply reference_engine_enforces | exact Hv].
Defined.

(** C5, as stated, fails: the bridge turns nothing down.  Handed to an
    engine that accepts every call,
    [sqlite3_create_go_function(db, "", 1, 4096, 7)] (an empty name, and a
    flag bit outside the supported bits 1 and 2048) returns [SQLITE_OK] and
    leaves a registration under the empty name, with the unknown bit in its
    flag word. *)
Lemma violation_accepted_by_bridge :
  let E := reference_engine (Hdr := sqlite3_h_3) (λ _, 0) in
  let p := sqlite3_create_go_function (Hdr := sqlite3_h_3) 1 "" 1 4096 7 in
  "" = "" ∧ unknown_bits 2049 4096 ≠ 0 ∧
  violates (λ _, true) 2049 scalar "" 1 4096 ∧
  status E p engine_init = 0 ∧
  registry (state_after E p engine_init) !! inr ("", 1)
    = Some (CreateFunctionV2 1 "" 1 4097 7 (Some go_func) NULL NULL
              (Some go_destroy)) ∧
  ¬ rejected (Hdr := sqlite3_h_3) E p engine_init.
Proof.
  split; [done |]. split; [by vm_compute |]. split; [by left |].
  split; [done |]. split; [by vm_compute |].
  by intros [H _].
Qed.

Lemma destroy_fires_exactly_once_witness :
  let v := contract_check (Hdr := sqlite3_h_3) (λ _, true) 2049 in
  let ops := [Register scalar 1 "f" 1 0 7; Invoke (inr ("f", 1)) go_func;
              Register aggregate 1 "f" 1 2048 8;
              Invoke (inr ("f", 1)) go_value;
              Register window 1 "g" (-2) 0 9;
              Register collation 1 "nocase" 0 0 10;
              Shutdown; Invoke (inr ("f", 1)) go_step;
              Register scalar 1 "h" 1 0 11] in
  let life := lifetime (Hdr := sqlite3_h_3) v in
  occurrences 7 (life ops engine_init).2 = 1%nat ∧
  (live 7 (registry (life ops engine_init).1)
   + destroyed 7 (trace (life ops engine_init).1) = 1)%nat ∧
  (destroyed 7 (trace (life ops engine_init).1) ≤ 1)%nat ∧
  (closed (life ops engine_init).1 = true →
   destroyed 7 (trace (life ops engine_init).1) = 1%nat) ∧
  (∀ ops1 o ops2, ops = ops1 ++ o :: ops2 →
     destroyed 7
       (trace (step (Hdr := sqlite3_h_3) v o (life ops1 engine_init).1).1)
     ≠ destroyed 7 (trace (life ops1 engine_init).1) →
     o = Shutdown ∨
     ∃ k db zName nArg flags pApp old,
       o = Register k db zName nArg flags pApp ∧
       registry (life ops1 engine_init).1 !! op_key k zName nArg = Some old ∧
       call_handle old = 7 ∧
       status (reference_engine (Hdr := sqlite3_h_3) v)
         (register (Hdr := sqlite3_h_3) k db zName nArg flags pApp)
         (life ops1 engine_init).1 = 0).
Proof.
  split; [by vm_compute |].
  apply (destroy_fires_exactly_once (Hdr := sqlite3_h_3)). by vm_compute.
Defined.

Lemma replacement_destroys_old_first_witness :
  let v := contract_check (Hdr := sqlite3_h_3) (λ _, true) 2049 in
  let E := reference_engine (Hdr := sqlite3_h_3) v in
  let ops := [Register scalar 1 "f" 1 0 7; Invoke (inr ("f", 1)) go_func] in
  let old := CreateFunctionV2 1 "f" 1 1 7 (Some go_func) NULL NULL
               (Some go_destroy) in
  let st := (lifetime (Hdr := sqlite3_h_3) v ops engine_init).1 in
  let p := register (Hdr := sqlite3_h_3) aggregate 1 "f" 1 2048 8 in
  registry st !! op_key aggregate "f" 1 = Some old ∧
  status E p st = 0 ∧
  trace (state_after E p st) = trace st ++ [Invoked go_destroy 7] ∧
  (∃ new, forwards p new ∧ call_handle new = 8 ∧
          registry (state_after E p st) !! op_key aggregate "f" 1 = Some new) ∧
  (∀ later, ∃ tail,
     trace (lifetime (Hdr := sqlite3_h_3) v later (state_after E p st)).1
     = trace st ++ Invoked go_destroy 7 :: tail).
Proof.
  intros v E ops old st p.
  split; [by vm_compute |]. split; [by vm_compute |].
  apply (replacement_destroys_old_first (Hdr := sqlite3_h_3)
           v ops aggregate 1 "f" 1 2048 8 old); by vm_compute.
Defined.

Lemma flag_word_is_int_witness :
  int_range 1 ∧ int_range (-2147483648) ∧
  ∃ c, forwards (register (Hdr := sqlite3_h_3) window 1 "f" 1 (-2147483648) 7) c ∧
       int_range (call_eTextRep c).
Proof.
  assert (H1 : int_range 1) by (unfold int_range; lia).
  assert (H2 : int_range (-2147483648)) by (unfold int_range; lia).
  split; [exact H1 |]. split; [exact H2 |].
  exact (flag_word_is_int (Hdr := sqlite3_h_3) window 1 "f" 1 (-2147483648) 7
           H1 H2).
Defined.

Lemma entry_points_injective_witness :
  let c := CreateWindowFunction 1 "f" 1 2049 7 (Some go_step) (Some go_final)
             (Some go_value) (Some go_inverse) (Some go_destroy) in
  forwards (register (Hdr := sqlite3_h_3) aggregate 1 "f" 1 2048 7) c ∧
  forwards (register (Hdr := sqlite3_h_3) aggregate 1 "f" 1 2049 7) c ∧
  aggregate = aggregate ∧ 1 = 1 ∧ "f" = "f" ∧ 7 = 7 ∧
  (aggregate ≠ collation →
   1 = 1 ∧ ∀ i, Z.testbit 1 i = false → Z.testbit 2048 i = Z.testbit 2049 i).
Proof.
  intros c.
  assert (H1 : forwards (register (Hdr := sqlite3_h_3) aggregate 1 "f" 1 2048 7) c)
    by apply forwards_call.
  assert (H2 : forwards (register (Hdr := sqlite3_h_3) aggregate 1 "f" 1 2049 7) c)
    by apply forwards_call.
  split; [exact H1 |]. split; [exact H2 |].
  exact (entry_points_injective (Hdr := sqlite3_h_3) aggregate aggregate 1 1
           "f" "f" 1 1 2048 2049 7 7 c H1 H2).
Defined.
